(** * Bitcask visualizer: the store of [script.js]

    A shallow embedding of the classes [LogEntry], [KeyDirEntry] and
    [BitcaskStore] of [src/script.js], and the properties of the store's
    three methods [put], [get] and [delete].

    - The log (a JavaScript array that only ever grows by [push]) is a
      [list]; the keyDir (a JavaScript [Map] keyed by strings) is a
      [gmap string].
    - The methods mutate [this] and may throw, so they are written in a
      state-and-exception monad over the store: a computation returns a
      completion (normal or abrupt) together with the store it leaves behind.
      A throw keeps the mutations made before it.
    - JavaScript numbers that hold array positions and lengths are [Z].
    - The instant read by [new Date()] in the [LogEntry] constructor is an
      argument of the operation that builds the record.
    - The submit listeners of the three forms work on the page: the store,
      the values of the text inputs and the result box. *)

From Stdlib Require Import ZArith Ascii String.
From stdpp Require Import gmap strings list fin_maps.

Local Open Scope Z_scope.

(** ** JavaScript values

    The store keeps a value as it is given and looks into it at one place
    only, [JSON.stringify(value)] in [put]. The values written out here are
    [undefined], [null], booleans and strings; a string is a sequence of
    code units below 256, one [ascii] each. No property below depends on
    these being the only values. *)

Inductive JsVal : Type :=
  | JUndefined
  | JNull
  | JBool (b : bool)
  | JStr (s : string).

Inductive JsError : Type :=
  | TypeError.

(** The completion of a call: it returns a value or throws. *)
Inductive Completion (A : Type) : Type :=
  | Return (a : A)
  | Throw (e : JsError).
Arguments Return {A} a.
Arguments Throw {A} e.

(** ** [JSON.stringify] on these values *)

Module JSON.

Definition hex_digit (n : N) : ascii :=
  if (n <? 10)%N then ascii_of_N (48 + n) else ascii_of_N (87 + n).

(** [\u00XX] for a code unit below 256. *)
Definition unicode_escape (n : N) : string :=
  String "\" (String "u" (String "0" (String "0"
    (String (hex_digit (n / 16))
      (String (hex_digit (n mod 16)) EmptyString))))).

(** One code unit of a quoted string (QuoteJSONString): the two-character
    escapes of the table, [\u00XX] for the other control characters, the
    code unit itself otherwise. *)
Definition quote_char (c : ascii) : string :=
  let n := N_of_ascii c in
  if (n =? 8)%N then "\b"
  else if (n =? 9)%N then "\t"
  else if (n =? 10)%N then "\n"
  else if (n =? 12)%N then "\f"
  else if (n =? 13)%N then "\r"
  else if (n =? 34)%N then String "\" (String c EmptyString)
  else if (n =? 92)%N then "\\"
  else if (n <? 32)%N then unicode_escape n
  else String c EmptyString.

Fixpoint quote_chars (s : string) : string :=
  match s with
  | EmptyString => EmptyString
  | String c s' => quote_char c +:+ quote_chars s'
  end.

Definition quote (s : string) : string :=
  String "034" (quote_chars s +:+ String "034" EmptyString).

(** [JSON.stringify(value)]: a string, or [None] for the result
    [undefined]. *)
Definition stringify (value : JsVal) : option string :=
  match value with
  | JUndefined => None
  | JNull => Some "null"%string
  | JBool true => Some "true"%string
  | JBool false => Some "false"%string
  | JStr s => Some (quote s)
  end.

End JSON.

(** [x.length] where [x] is the result of [JSON.stringify]: the number of
    code units of a string, a [TypeError] on [undefined]. *)
Definition length_of (x : option string) : Completion Z :=
  match x with
  | Some s => Return (Z.of_nat (String.length s))
  | None => Throw TypeError
  end.

(** [value.length] of a stored value: defined on strings only. *)
Definition value_length (v : JsVal) : option Z :=
  match v with
  | JStr s => Some (Z.of_nat (String.length s))
  | _ => None
  end.

(** ** Data structures *)

Module LogEntry.

Record t : Type := mk {
  timestamp : string;
  key : string;
  value : JsVal;
  isTombstone : bool
}.

(** [new LogEntry(key, value, isTombstone)], created at instant [now]. *)
Definition new (now : string) (key : string) (value : JsVal)
    (isTombstone : bool) : t :=
  {| timestamp := now; key := key; value := value;
     isTombstone := isTombstone |}.

End LogEntry.

Module KeyDirEntry.

Record t : Type := mk {
  fileId : string;
  valueSize : Z;
  valuePos : Z;
  timestamp : string
}.

Definition new (fileId : string) (valueSize valuePos : Z)
    (timestamp : string) : t :=
  {| fileId := fileId; valueSize := valueSize; valuePos := valuePos;
     timestamp := timestamp |}.

End KeyDirEntry.

(** [arr[i]] on an array: the element, or [None] for [undefined] when [i] is
    not an index of the array. *)
Definition array_get {A : Type} (arr : list A) (i : Z) : option A :=
  if i <? 0 then None else arr !! Z.to_nat i.

Module BitcaskStore.

Record t : Type := mk {
  log : list LogEntry.t;
  keyDir : gmap string KeyDirEntry.t
}.

(** [new BitcaskStore()] *)
Definition new : t := {| log := []; keyDir := ∅ |}.

(** Computations on [this]. *)
Definition M (A : Type) : Type := t → Completion A * t.

#[export] Instance M_ret : MRet M := λ A a s, (Return a, s).
#[export] Instance M_bind : MBind M := λ A B f c s,
  match c s with
  | (Return a, s') => f a s'
  | (Throw e, s') => (Throw e, s')
  end.

Definition throw {A : Type} (e : JsError) : M A := λ s, (Throw e, s).

(** Lifts the completion of an expression that does not touch the store. *)
Definition eval {A : Type} (c : Completion A) : M A := λ s, (c, s).

(** [this.log.push(entry)] *)
Definition log_push (entry : LogEntry.t) : M unit :=
  λ s, (Return (), {| log := log s ++ [entry]; keyDir := keyDir s |}).

(** [this.log.length] *)
Definition log_length : M Z :=
  λ s, (Return (Z.of_nat (length (log s))), s).

(** [this.log[pos]] *)
Definition readAt (pos : Z) : M (option LogEntry.t) :=
  λ s, (Return (array_get (log s) pos), s).

(** [this.keyDir.set(key, entry)] *)
Definition keyDir_set (key : string) (entry : KeyDirEntry.t) : M unit :=
  λ s, (Return (), {| log := log s; keyDir := <[key := entry]> (keyDir s) |}).

(** [this.keyDir.has(key)] *)
Definition keyDir_has (key : string) : M bool :=
  λ s, (Return (bool_decide (is_Some (keyDir s !! key))), s).

(** [this.keyDir.get(key)] *)
Definition keyDir_get (key : string) : M (option KeyDirEntry.t) :=
  λ s, (Return (keyDir s !! key), s).

(** [this.keyDir.delete(key)] *)
Definition keyDir_delete (key : string) : M unit :=
  λ s, (Return (), {| log := log s; keyDir := base.delete key (keyDir s) |}).

(** [x.field] where [x] may be [undefined]. *)
Definition member {A B : Type} (x : option A) (field : A → B) : M B :=
  match x with
  | Some a => mret (field a)
  | None => throw TypeError
  end.

Definition put (now : string) (key : string) (value : JsVal) : M unit :=
  let entry := LogEntry.new now key value false in
  log_push entry ;;
  len ← log_length ;
  let offset := len - 1 in
  size ← eval (length_of (JSON.stringify value)) ;
  let keyDirEntry :=
    KeyDirEntry.new "active.data" size offset (LogEntry.timestamp entry) in
  keyDir_set key keyDirEntry.

Definition get (key : string) : M JsVal :=
  has ← keyDir_has key ;
  if negb has then mret JNull
  else
    meta ← keyDir_get key ;
    pos ← member meta KeyDirEntry.valuePos ;
    entry ← readAt pos ;
    member entry LogEntry.value.

Definition delete (now : string) (key : string) : M unit :=
  let entry := LogEntry.new now key (JStr "DELETE_TOMBSTONE") true in
  log_push entry ;;
  keyDir_delete key.

End BitcaskStore.

(** ** Sequences of calls *)

Inductive Op : Type :=
  | Put (now : string) (key : string) (value : JsVal)
  | Delete (now : string) (key : string).

Definition call (op : Op) : BitcaskStore.M unit :=
  match op with
  | Put now key value => BitcaskStore.put now key value
  | Delete now key => BitcaskStore.delete now key
  end.

(** The store left behind by a series of calls, whatever their completions
    (a caller that catches what [put] throws goes on with the same store). *)
Definition after_calls (ops : list Op) (s : BitcaskStore.t) : BitcaskStore.t :=
  foldl (λ s op, snd (call op s)) s ops.

(** The stores reached from [new BitcaskStore()] by [put] and [delete]
    operations, each of which returns. ([delete] always does; [put] does
    unless [JSON.stringify] has no string for its value, see
    [put_returns_iff].) *)
Inductive reachable : BitcaskStore.t → Prop :=
  | reachable_new :
      reachable BitcaskStore.new
  | reachable_put s now key value s' :
      reachable s →
      BitcaskStore.put now key value s = (Return (), s') →
      reachable s'
  | reachable_delete s now key s' :
      reachable s →
      BitcaskStore.delete now key s = (Return (), s') →
      reachable s'.

(** ** The most recent record of a key

    A scan of the log from its start that keeps the last record written for
    [k], with its position. *)

Fixpoint latest_from (k : string) (l : list LogEntry.t) (i : nat)
    (acc : option (nat * LogEntry.t)) : option (nat * LogEntry.t) :=
  match l with
  | [] => acc
  | e :: l' =>
      latest_from k l' (S i)
        (if decide (LogEntry.key e = k) then Some (i, e) else acc)
  end.

Definition latest (k : string) (l : list LogEntry.t)
    : option (nat * LogEntry.t) :=
  latest_from k l 0 None.

Definition latest_record (k : string) (l : list LogEntry.t)
    : option LogEntry.t :=
  snd <$> latest k l.

(** ** The invariant between the keyDir and the log *)

(** The entry [m] indexed under [k] points at the most recent record of
    [k], which is a live write, and caches its instant and the size of its
    serialized value. *)
Definition index_entry_ok (s : BitcaskStore.t) (k : string)
    (m : KeyDirEntry.t) : Prop :=
  ∃ i e,
    latest k (BitcaskStore.log s) = Some (i, e) ∧
    LogEntry.isTombstone e = false ∧
    KeyDirEntry.valuePos m = Z.of_nat i ∧
    KeyDirEntry.timestamp m = LogEntry.timestamp e ∧
    length_of (JSON.stringify (LogEntry.value e))
      = Return (KeyDirEntry.valueSize m).

Definition consistent (s : BitcaskStore.t) : Prop :=
  ∀ k,
    match BitcaskStore.keyDir s !! k with
    | Some m => index_entry_ok s k m
    | None => ∀ i e, latest k (BitcaskStore.log s) = Some (i, e) →
                     LogEntry.isTombstone e = true
    end.

(** ** The scenario of the specification, as concrete stores *)

Definition store_a1 : BitcaskStore.t :=
  snd (BitcaskStore.put "t1" "a" (JStr "1") BitcaskStore.new).
Definition store_a2 : BitcaskStore.t :=
  snd (BitcaskStore.put "t2" "a" (JStr "2") store_a1).
Definition store_deleted : BitcaskStore.t :=
  snd (BitcaskStore.delete "t3" "a" store_a2).
Definition store_missing : BitcaskStore.t :=
  snd (BitcaskStore.delete "t4" "missing" store_deleted).

(** A store that no call builds: its index points past the end of the log. *)
Definition store_desync : BitcaskStore.t :=
  {| BitcaskStore.log := [];
     BitcaskStore.keyDir :=
       {[ "a"%string := KeyDirEntry.new "active.data" 3 0 "t1" ]} |}.

(** The key a call works on, and the record it pushes first of all. *)
Definition key_of (op : Op) : string :=
  match op with
  | Put _ key _ => key
  | Delete _ key => key
  end.

Definition record_of (op : Op) : LogEntry.t :=
  match op with
  | Put now key value => LogEntry.new now key value false
  | Delete now key => LogEntry.new now key (JStr "DELETE_TOMBSTONE") true
  end.

(** The entry of [k] in the keyDir, if any, points into the log. *)
Definition entry_in_log (s : BitcaskStore.t) (k : string) : Prop :=
  ∀ m, BitcaskStore.keyDir s !! k = Some m →
       is_Some (array_get (BitcaskStore.log s) (KeyDirEntry.valuePos m)).

(** ** The page: the form handlers of the UI logic

    The handlers read and write the [value] of four text inputs and the
    class list and text of the result box, and call the one [store] of the
    page. These are the state of the page here. What the handlers only hand
    to the browser (preventDefault, focus, and the two containers that
    [render] rewrites) is not part of it. *)

(** [String.prototype.trim] on code units below 256: the white space and
    line terminators in that range are TAB, LF, VT, FF, CR, SP and NBSP. *)
Definition is_white_space (c : ascii) : bool :=
  let n := N_of_ascii c in
  ((n =? 9) || (n =? 10) || (n =? 11) || (n =? 12) || (n =? 13)
   || (n =? 32) || (n =? 160))%N.

Fixpoint trim_start (s : string) : string :=
  match s with
  | EmptyString => EmptyString
  | String c s' => if is_white_space c then trim_start s' else s
  end.

Fixpoint trim_end (s : string) : string :=
  match s with
  | EmptyString => EmptyString
  | String c s' =>
      match trim_end s' with
      | EmptyString => if is_white_space c then EmptyString
                       else String c EmptyString
      | r => String c r
      end
  end.

Definition trim (s : string) : string := trim_end (trim_start s).

(** A string of white space only (the empty string is one). *)
Fixpoint all_white_space (s : string) : bool :=
  match s with
  | EmptyString => true
  | String c s' => is_white_space c && all_white_space s'
  end.

(** [!s] on a string: only the empty string is falsy. *)
Definition is_empty (s : string) : bool :=
  match s with
  | EmptyString => true
  | String _ _ => false
  end.

(** [`${v}`]: the string a template literal makes of a value. *)
Definition to_string (v : JsVal) : string :=
  match v with
  | JUndefined => "undefined"
  | JNull => "null"
  | JBool true => "true"
  | JBool false => "false"
  | JStr s => s
  end.

(** [v === null] *)
Definition is_null (v : JsVal) : bool :=
  match v with
  | JNull => true
  | _ => false
  end.

(** A DOMTokenList, as the ordered list of its tokens. *)
Definition classList_remove (tokens : list string) (l : list string)
    : list string :=
  filter (λ c, c ∉ tokens) l.

Definition classList_add (token : string) (l : list string) : list string :=
  if decide (token ∈ l) then l else l ++ [token].

Module Page.

Record t : Type := mk {
  store : BitcaskStore.t;
  inputPutKey : string;
  inputPutValue : string;
  inputGetKey : string;
  inputDeleteKey : string;
  resultBox_classList : list string;
  resultBox_textContent : string
}.

(** Computations on the page. *)
Definition M (A : Type) : Type := t → Completion A * t.

#[export] Instance M_ret : MRet M := λ A a p, (Return a, p).
#[export] Instance M_bind : MBind M := λ A B f c p,
  match c p with
  | (Return a, p') => f a p'
  | (Throw e, p') => (Throw e, p')
  end.

(** A method call on [store]. *)
Definition on_store {A : Type} (c : BitcaskStore.M A) : M A :=
  λ p, let '(r, s') := c (store p) in
       (r, {| store := s';
              inputPutKey := inputPutKey p;
              inputPutValue := inputPutValue p;
              inputGetKey := inputGetKey p;
              inputDeleteKey := inputDeleteKey p;
              resultBox_classList := resultBox_classList p;
              resultBox_textContent := resultBox_textContent p |}).

(** Reads a property of the page. *)
Definition read {A : Type} (field : t → A) : M A :=
  λ p, (Return (field p), p).

(** [inputPutKey.value = v], and likewise for the other properties. *)
Definition set_inputPutKey (v : string) : M unit :=
  λ p, (Return (),
        {| store := store p;
           inputPutKey := v;
           inputPutValue := inputPutValue p;
           inputGetKey := inputGetKey p;
           inputDeleteKey := inputDeleteKey p;
           resultBox_classList := resultBox_classList p;
           resultBox_textContent := resultBox_textContent p |}).

Definition set_inputPutValue (v : string) : M unit :=
  λ p, (Return (),
        {| store := store p;
           inputPutKey := inputPutKey p;
           inputPutValue := v;
           inputGetKey := inputGetKey p;
           inputDeleteKey := inputDeleteKey p;
           resultBox_classList := resultBox_classList p;
           resultBox_textContent := resultBox_textContent p |}).

Definition set_inputGetKey (v : string) : M unit :=
  λ p, (Return (),
        {| store := store p;
           inputPutKey := inputPutKey p;
           inputPutValue := inputPutValue p;
           inputGetKey := v;
           inputDeleteKey := inputDeleteKey p;
           resultBox_classList := resultBox_classList p;
           resultBox_textContent := resultBox_textContent p |}).

Definition set_inputDeleteKey (v : string) : M unit :=
  λ p, (Return (),
        {| store := store p;
           inputPutKey := inputPutKey p;
           inputPutValue := inputPutValue p;
           inputGetKey := inputGetKey p;
           inputDeleteKey := v;
           resultBox_classList := resultBox_classList p;
           resultBox_textContent := resultBox_textContent p |}).

Definition update_classList (f : list string → list string) : M unit :=
  λ p, (Return (),
        {| store := store p;
           inputPutKey := inputPutKey p;
           inputPutValue := inputPutValue p;
           inputGetKey := inputGetKey p;
           inputDeleteKey := inputDeleteKey p;
           resultBox_classList := f (resultBox_classList p);
           resultBox_textContent := resultBox_textContent p |}).

Definition set_textContent (v : string) : M unit :=
  λ p, (Return (),
        {| store := store p;
           inputPutKey := inputPutKey p;
           inputPutValue := inputPutValue p;
           inputGetKey := inputGetKey p;
           inputDeleteKey := inputDeleteKey p;
           resultBox_classList := resultBox_classList p;
           resultBox_textContent := v |}).

(** [`Key "${key}" not found (or deleted).`] *)
Definition not_found_message (key : string) : string :=
  "Key " +:+ String "034" (key +:+ String "034" " not found (or deleted).").

(** [`Value: ${val}`] *)
Definition value_message (val : JsVal) : string :=
  "Value: " +:+ to_string val.

(** The submit listener of [formPut]; [now] is the instant at which
    [store.put] creates its record. *)
Definition formPut_submit (now : string) : M unit :=
  rawKey ← read inputPutKey ;
  let key := trim rawKey in
  rawVal ← read inputPutValue ;
  let val := trim rawVal in
  if is_empty key || is_empty val then mret ()
  else
    on_store (BitcaskStore.put now key (JStr val)) ;;
    set_inputPutKey "" ;;
    set_inputPutValue "".

(** The submit listener of [formGet]. *)
Definition formGet_submit : M unit :=
  rawKey ← read inputGetKey ;
  let key := trim rawKey in
  if is_empty key then mret ()
  else
    val ← on_store (BitcaskStore.get key) ;
    update_classList (classList_remove ["hidden"; "error"]) ;;
    if is_null val then
      update_classList (classList_add "error") ;;
      set_textContent (not_found_message key)
    else
      set_textContent (value_message val).

(** The submit listener of [formDelete]. *)
Definition formDelete_submit (now : string) : M unit :=
  rawKey ← read inputDeleteKey ;
  let key := trim rawKey in
  if is_empty key then mret ()
  else
    on_store (BitcaskStore.delete now key) ;;
    set_inputDeleteKey "".

End Page.

(** What happens on the page: the user edits one of the inputs, or one of
    the forms is submitted. *)
Inductive Event : Type :=
  | EditPutKey (text : string)
  | EditPutValue (text : string)
  | EditGetKey (text : string)
  | EditDeleteKey (text : string)
  | SubmitPut (now : string)
  | SubmitGet
  | SubmitDelete (now : string).

Definition dispatch (ev : Event) : Page.M unit :=
  match ev with
  | EditPutKey text => Page.set_inputPutKey text
  | EditPutValue text => Page.set_inputPutValue text
  | EditGetKey text => Page.set_inputGetKey text
  | EditDeleteKey text => Page.set_inputDeleteKey text
  | SubmitPut now => Page.formPut_submit now
  | SubmitGet => Page.formGet_submit
  | SubmitDelete now => Page.formDelete_submit now
  end.

(** The pages reached from a freshly loaded one, whose store is
    [new BitcaskStore()], by any events. A listener that throws leaves the
    page as it was at the throw. *)
Inductive page_reachable : Page.t → Prop :=
  | page_loaded p :
      Page.store p = BitcaskStore.new → page_reachable p
  | page_event p ev :
      page_reachable p → page_reachable (snd (dispatch ev p)).

(** What the page writes into the log: keys are trimmed and not empty; a
    live record holds a string, trimmed and not empty; a tombstone holds the
    sentinel. *)
Definition page_record (e : LogEntry.t) : Prop :=
  LogEntry.key e ≠ EmptyString ∧
  trim (LogEntry.key e) = LogEntry.key e ∧
  if LogEntry.isTombstone e
  then LogEntry.value e = JStr "DELETE_TOMBSTONE"
  else ∃ x, LogEntry.value e = JStr x ∧ x ≠ EmptyString ∧ trim x = x.

(** A page just loaded, with empty inputs and a hidden result box. *)
Definition page_loaded_blank : Page.t :=
  {| Page.store := BitcaskStore.new;
     Page.inputPutKey := "";
     Page.inputPutValue := "";
     Page.inputGetKey := "";
     Page.inputDeleteKey := "";
     Page.resultBox_classList := ["result-box"; "hidden"]%string;
     Page.resultBox_textContent := "" |}.

(** The page after a series of events. *)
Definition after_events (evs : list Event) (p : Page.t) : Page.t :=
  foldl (λ p ev, snd (dispatch ev p)) p evs.

(** The user puts [hello] under [a], with blanks around both, and looks
    [a] up; then looks up a key never written. *)
Definition page_hello : Page.t :=
  after_events
    [EditPutKey " a "; EditPutValue " hello "; SubmitPut "t1";
     EditGetKey "a "] page_loaded_blank.

Definition page_lookup_zz : Page.t :=
  after_events [EditGetKey " zz"] page_hello.

(** The stores left by a put of [undefined]: on the empty store, and over
    a value already put under the same key. *)
Definition store_failed_put : BitcaskStore.t :=
  after_calls [Put "t1" "b" JUndefined] BitcaskStore.new.

Definition store_failed_overwrite : BitcaskStore.t :=
  after_calls [Put "t1" "a" (JStr "1"); Put "t2" "a" JUndefined]
    BitcaskStore.new.

(** Pages whose inputs hold white space only (spaces, a tab, a no-break
    space): the key of each form on the first, the value of the put form on
    the second. *)
Definition page_blank_keys : Page.t :=
  after_events
    [EditPutKey (String "009" "  "); EditPutValue " again ";
     EditGetKey (String "160" " "); EditDeleteKey "   "] page_hello.

Definition page_blank_value : Page.t :=
  after_events
    [EditPutKey "a"; EditPutValue (String " " (String "009" " "))]
    page_hello.

(** The scenario runs as the specification tells it. *)
Example scenario_a :
  fst (BitcaskStore.get "a" store_a1) = Return (JStr "1") ∧
  fst (BitcaskStore.get "a" store_a2) = Return (JStr "2") ∧
  length (BitcaskStore.log store_a2) = 2%nat ∧
  fst (BitcaskStore.get "a" store_deleted) = Return JNull ∧
  length (BitcaskStore.log store_deleted) = 3%nat ∧
  fst (BitcaskStore.get "missing" store_missing) = Return JNull ∧
  length (BitcaskStore.log store_missing) = 4%nat ∧
  latest_record "a" (BitcaskStore.log store_missing)
    = Some (LogEntry.new "t3" "a" (JStr "DELETE_TOMBSTONE") true).
Proof. vm_compute. repeat split. Qed.

(** ** The methods as equations on the store *)

Section Equations.

Import BitcaskStore.

Lemma put_eq now k v s :
  put now k v s =
    let s1 := {| log := log s ++ [LogEntry.new now k v false];
                 keyDir := keyDir s |} in
    match JSON.stringify v with
    | Some str =>
        (Return (),
         {| log := log s1;
            keyDir :=
              <[k := KeyDirEntry.new "active.data"
                       (Z.of_nat (String.length str))
                       (Z.of_nat (length (log s1)) - 1) now]> (keyDir s) |})
    | None => (Throw TypeError, s1)
    end.
Proof.
  unfold put, mbind, M_bind, log_push, log_length, eval, keyDir_set. simpl.
  destruct (JSON.stringify v); reflexivity.
Qed.

Lemma delete_eq now k s :
  delete now k s =
    (Return (),
     {| log := log s ++ [LogEntry.new now k (JStr "DELETE_TOMBSTONE") true];
        keyDir := base.delete k (keyDir s) |}).
Proof. reflexivity. Qed.

Lemma get_eq k s :
  get k s =
    match keyDir s !! k with
    | None => (Return JNull, s)
    | Some m =>
        match array_get (log s) (KeyDirEntry.valuePos m) with
        | Some e => (Return (LogEntry.value e), s)
        | None => (Throw TypeError, s)
        end
    end.
Proof.
  unfold get, mbind, M_bind, keyDir_has, keyDir_get, readAt, member. simpl.
  destruct (keyDir s !! k) as [m|] eqn:Hk.
  - rewrite bool_decide_eq_true_2 by eauto. simpl. rewrite Hk. simpl.
    destruct (array_get (log s) (KeyDirEntry.valuePos m)); reflexivity.
  - rewrite bool_decide_eq_false_2; [reflexivity|].
    intros [? ?]; discriminate.
Qed.

(** [put] throws only at [JSON.stringify(value).length], when the value has
    no serialization; every string, boolean and [null] has one. *)
Lemma put_returns_iff now k v s :
  fst (put now k v s) = Return () ↔ JSON.stringify v ≠ None.
Proof.
  rewrite put_eq. destruct (JSON.stringify v); simpl; split; congruence.
Qed.

End Equations.

(** ** Facts on the most recent record *)

Section Latest.

Implicit Types (k : string) (l : list LogEntry.t) (e : LogEntry.t).

Lemma latest_from_snoc k l e i acc :
  latest_from k (l ++ [e]) i acc =
    if decide (LogEntry.key e = k) then Some ((i + length l)%nat, e)
    else latest_from k l i acc.
Proof.
  revert i acc. induction l as [|a l IH]; intros i acc; simpl.
  - rewrite Nat.add_0_r. reflexivity.
  - rewrite IH. rewrite Nat.add_succ_r. reflexivity.
Qed.

Lemma latest_snoc k l e :
  latest k (l ++ [e]) =
    if decide (LogEntry.key e = k) then Some (length l, e) else latest k l.
Proof. unfold latest. rewrite latest_from_snoc. reflexivity. Qed.

(** [latest] does find the last record of the key: it sits at the position
    returned, and no later record is for the same key. *)
Lemma latest_Some k l i e :
  latest k l = Some (i, e) →
  l !! i = Some e ∧ LogEntry.key e = k ∧
  ∀ j e', (i < j)%nat → l !! j = Some e' → LogEntry.key e' ≠ k.
Proof.
  revert i e. induction l as [|x l IH] using rev_ind; intros i e.
  - discriminate.
  - rewrite latest_snoc. destruct (decide (LogEntry.key x = k)) as [Hx|Hx].
    + intros [= <- <-]. split; [apply list_lookup_middle; reflexivity|].
      split; [assumption|]. intros j e' Hj Hl.
      apply lookup_lt_Some in Hl. rewrite length_app in Hl. simpl in Hl. lia.
    + intros H. destruct (IH _ _ H) as (Hi & Hk & Hlater).
      split; [apply lookup_app_l_Some; assumption|]. split; [assumption|].
      intros j e' Hj Hl.
      destruct (decide (j < length l)%nat) as [Hlt|Hge].
      * rewrite lookup_app_l in Hl by assumption. eauto.
      * apply lookup_lt_Some in Hl as Hlen.
        rewrite length_app in Hlen. simpl in Hlen.
        assert (j = length l) as -> by lia.
        rewrite list_lookup_middle in Hl by reflexivity.
        congruence.
Qed.

Lemma latest_None k l :
  latest k l = None ↔ ∀ e, e ∈ l → LogEntry.key e ≠ k.
Proof.
  induction l as [|x l IH] using rev_ind.
  - split; [|reflexivity]. intros _ e He. inversion He.
  - rewrite latest_snoc. destruct (decide (LogEntry.key x = k)) as [Hx|Hx].
    + split; [discriminate|]. intros H. exfalso.
      apply (H x); [|assumption]. apply elem_of_app. right. constructor.
    + rewrite IH. split; intros H e He.
      * apply elem_of_app in He as [He|He]; [eauto|].
        apply list_elem_of_singleton in He as ->. assumption.
      * apply H. apply elem_of_app. left. assumption.
Qed.

End Latest.

(** ** The invariant is kept *)

Section Invariant.

Import BitcaskStore.

Lemma consistent_new : consistent new.
Proof. intros k. simpl. rewrite lookup_empty. discriminate. Qed.

Lemma consistent_put s now k v s' :
  consistent s → put now k v s = (Return (), s') → consistent s'.
Proof.
  intros Hs. rewrite put_eq. simpl.
  destruct (JSON.stringify v) as [str|] eqn:Hv; [|discriminate].
  intros [= <-] k'. simpl.
  destruct (decide (k = k')) as [<-|Hne].
  - rewrite lookup_insert_eq.
    exists (length (log s)), (LogEntry.new now k v false).
    repeat split; simpl.
    + rewrite latest_snoc. simpl. rewrite decide_True; reflexivity.
    + rewrite length_app. simpl. lia.
    + rewrite Hv. reflexivity.
  - rewrite lookup_insert_ne by assumption.
    specialize (Hs k'). unfold index_entry_ok in *. simpl.
    rewrite latest_snoc. simpl. rewrite decide_False by assumption.
    destruct (keyDir s !! k'); assumption.
Qed.

Lemma consistent_delete s now k s' :
  consistent s → delete now k s = (Return (), s') → consistent s'.
Proof.
  intros Hs. rewrite delete_eq. intros [= <-] k'. simpl.
  destruct (decide (k = k')) as [<-|Hne].
  - rewrite lookup_delete_eq. rewrite latest_snoc. simpl.
    rewrite decide_True by reflexivity. intros i e [= <- <-]. reflexivity.
  - rewrite lookup_delete_ne by assumption.
    specialize (Hs k'). unfold index_entry_ok in *. simpl.
    rewrite latest_snoc. simpl. rewrite decide_False by assumption.
    destruct (keyDir s !! k'); assumption.
Qed.

Lemma reachable_consistent s : reachable s → consistent s.
Proof.
  induction 1;
    eauto using consistent_new, consistent_put, consistent_delete.
Qed.

End Invariant.

(** ** Positional reads *)

Section ArrayGet.

Context {A : Type}.
Implicit Types (arr : list A) (pos : Z).

Lemma array_get_Some arr pos x :
  array_get arr pos = Some x →
  0 ≤ pos < Z.of_nat (length arr) ∧ arr !! Z.to_nat pos = Some x.
Proof.
  unfold array_get. destruct (pos <? 0) eqn:Hneg; [discriminate|].
  apply Z.ltb_ge in Hneg. intros H. split; [|assumption].
  apply lookup_lt_Some in H. lia.
Qed.

Lemma array_get_None arr pos :
  array_get arr pos = None ↔ pos < 0 ∨ Z.of_nat (length arr) ≤ pos.
Proof.
  unfold array_get. destruct (pos <? 0) eqn:Hneg.
  - apply Z.ltb_lt in Hneg. split; auto.
  - apply Z.ltb_ge in Hneg. rewrite lookup_ge_None. lia.
Qed.

Lemma array_get_of_nat arr (i : nat) :
  array_get arr (Z.of_nat i) = arr !! i.
Proof.
  unfold array_get. destruct (Z.of_nat i <? 0) eqn:Hneg.
  - apply Z.ltb_lt in Hneg. lia.
  - rewrite Nat2Z.id. reflexivity.
Qed.

Lemma array_get_push arr pos x y :
  array_get arr pos = Some x → array_get (arr ++ [y]) pos = Some x.
Proof.
  unfold array_get. destruct (pos <? 0); [discriminate|].
  apply lookup_app_l_Some.
Qed.

Lemma array_get_pushed arr y :
  array_get (arr ++ [y]) (Z.of_nat (length (arr ++ [y])) - 1) = Some y.
Proof.
  rewrite length_app. simpl.
  replace (Z.of_nat (length arr + 1) - 1) with (Z.of_nat (length arr)) by lia.
  rewrite array_get_of_nat. apply list_lookup_middle. reflexivity.
Qed.

End ArrayGet.

(** ** What one call does to the store *)

Section Calls.

Import BitcaskStore.

(** Both methods push exactly one record, before anything else. *)
Lemma call_log op s :
  ∃ e, log (snd (call op s)) = log s ++ [e] ∧
       e = match op with
           | Put now k v => LogEntry.new now k v false
           | Delete now k =>
               LogEntry.new now k (JStr "DELETE_TOMBSTONE") true
           end.
Proof.
  destruct op as [now k v|now k]; simpl.
  - rewrite put_eq. simpl. destruct (JSON.stringify v); simpl; eauto.
  - eauto.
Qed.

Lemma after_calls_log ops s :
  ∃ l, log (after_calls ops s) = log s ++ l ∧ length l = length ops.
Proof.
  revert s. induction ops as [|op ops IH]; intros s; simpl.
  - exists []. rewrite app_nil_r. auto.
  - destruct (IH (snd (call op s))) as (l & -> & Hl).
    destruct (call_log op s) as (e & -> & _).
    exists (e :: l). rewrite <- app_assoc. simpl. auto.
Qed.

Lemma get_after_put s now k v s' :
  put now k v s = (Return (), s') → get k s' = (Return v, s').
Proof.
  rewrite put_eq. simpl. destruct (JSON.stringify v); [|discriminate].
  intros [= <-]. rewrite get_eq. simpl. rewrite lookup_insert_eq. simpl.
  rewrite array_get_pushed. reflexivity.
Qed.

Lemma get_absent s k :
  keyDir s !! k = None → get k s = (Return JNull, s).
Proof. intros H. rewrite get_eq, H. reflexivity. Qed.

Lemma get_indexed s k m :
  consistent s → keyDir s !! k = Some m →
  ∃ e, array_get (log s) (KeyDirEntry.valuePos m) = Some e ∧
       latest_record k (log s) = Some e ∧
       LogEntry.key e = k ∧ LogEntry.isTombstone e = false ∧
       get k s = (Return (LogEntry.value e), s).
Proof.
  intros Hs Hm. specialize (Hs k). rewrite Hm in Hs.
  destruct Hs as (i & e & Hlast & Hlive & Hpos & _).
  destruct (latest_Some _ _ _ _ Hlast) as (Hi & Hk & _).
  assert (array_get (log s) (KeyDirEntry.valuePos m) = Some e) as Hget
    by (rewrite Hpos, array_get_of_nat; assumption).
  exists e. unfold latest_record. rewrite Hlast, get_eq, Hm, Hget. auto.
Qed.

End Calls.

Lemma reachable_store_a2 : reachable store_a2.
Proof.
  apply (reachable_put store_a1 "t2" "a" (JStr "2")); [|reflexivity].
  apply (reachable_put BitcaskStore.new "t1" "a" (JStr "1")); [|reflexivity].
  apply reachable_new.
Qed.

(** ** The length of a serialized string *)

Lemma string_length_app (a b : string) :
  String.length (a +:+ b) = (String.length a + String.length b)%nat.
Proof.
  induction a as [|c a IH]; simpl; [reflexivity|]. rewrite IH. reflexivity.
Qed.

Lemma JSON_quote_char_length (c : ascii) :
  (1 ≤ String.length (JSON.quote_char c))%nat.
Proof. unfold JSON.quote_char. repeat case_match; simpl; lia. Qed.

Lemma JSON_quote_chars_length (x : string) :
  (String.length x ≤ String.length (JSON.quote_chars x))%nat.
Proof.
  induction x as [|c x IH]; simpl; [lia|].
  rewrite string_length_app. pose proof (JSON_quote_char_length c). lia.
Qed.

Lemma JSON_quote_length (x : string) :
  (String.length x + 2 ≤ String.length (JSON.quote x))%nat.
Proof.
  unfold JSON.quote. simpl. rewrite string_length_app. simpl.
  pose proof (JSON_quote_chars_length x). lia.
Qed.

(** ** Properties of the store *)

Section Properties.

Import BitcaskStore.

(** C1, amended (index-log consistency). In every store reached from the
    empty store by put and delete operations each of which returns, and for
    every key
    [k]: the keyDir has an entry for [k] if and only if the most recent
    record of [k] in the log is a live write; it has none if and only if
    the most recent record of [k] is a tombstone or the log has no record
    of [k]. *)
Theorem index_log_consistency (s : t) (k : string) :
  reachable s →
  (is_Some (keyDir s !! k) ↔
     ∃ e, latest_record k (log s) = Some e ∧
          LogEntry.isTombstone e = false) ∧
  (keyDir s !! k = None ↔
     latest_record k (log s) = None ∨
     ∃ e, latest_record k (log s) = Some e ∧
          LogEntry.isTombstone e = true).
Proof.
  intros Hs. apply reachable_consistent in Hs. specialize (Hs k).
  unfold latest_record.
  destruct (keyDir s !! k) as [m|].
  - destruct Hs as (i & e & -> & Hlive & _). simpl. split.
    + split; eauto.
    + split; [discriminate|].
      intros [[=]|(e' & [= <-] & Htomb)]. congruence.
  - split.
    + split; [intros [? [=]]|].
      destruct (latest k (log s)) as [[i e]|]; simpl.
      * intros (e' & [= <-] & Hlive). rewrite (Hs _ _ eq_refl) in Hlive.
        discriminate.
      * intros (? & [=] & _).
    + split; [|reflexivity]. intros _.
      destruct (latest k (log s)) as [[i e]|]; simpl; eauto.
Qed.

(** C2 (write-then-read). From any store, once [put(k, v)] has returned,
    [get(k)] returns exactly [v] (and leaves the store as it is). *)
Theorem write_then_read (s : t) (now k : string) (v : JsVal) (s' : t) :
  put now k v s = (Return (), s') →
  get k s' = (Return v, s').
Proof. apply get_after_put. Qed.

(** C3 (delete visibility). From any store, whatever it holds for [k],
    [delete(k)] returns and [get(k)] then returns the notFound result,
    [null]. *)
Theorem delete_visibility (s : t) (now k : string) :
  ∃ s', delete now k s = (Return (), s') ∧
        get k s' = (Return JNull, s').
Proof.
  eexists. split; [apply delete_eq|].
  apply get_absent. simpl. apply lookup_delete_eq.
Qed.

(** C4, amended (overwrite recency). From any store, when
    [put(k, v1); put(k, v2)] has run with both calls returning, [get(k)]
    returns [v2]. *)
Theorem overwrite_recency (s : t) (now1 now2 k : string) (v1 v2 : JsVal)
    (s' : t) :
  (put now1 k v1 ;; put now2 k v2) s = (Return (), s') →
  get k s' = (Return v2, s').
Proof.
  unfold mbind, M_bind.
  destruct (put now1 k v1 s) as [[[]|err] s1]; [|discriminate].
  apply get_after_put.
Qed.

(** C5 (history preservation). Every call of [put] and of [delete], on any
    store and whatever the key (indexed or not) and the completion, makes
    the log exactly one record longer, and every record of the log before
    the call is found afterwards at the same position, unchanged. *)
Theorem history_preservation (s : t) (op : Op) :
  length (log (snd (call op s))) = S (length (log s)) ∧
  take (length (log s)) (log (snd (call op s))) = log s ∧
  ∀ pos e, array_get (log s) pos = Some e →
           array_get (log (snd (call op s))) pos = Some e.
Proof.
  destruct (call_log op s) as (e & -> & _). split; [|split].
  - rewrite length_app. simpl. lia.
  - rewrite take_app_length. reflexivity.
  - intros pos e'. apply array_get_push.
Qed.


(** C7, amended (positional read). The read [this.log[pos]] never fails.
    When [pos] is negative or at least the length of the log it yields
    [undefined], and a [get] whose index entry holds such a position throws
    a [TypeError] on dereferencing it. When [pos] is a position already
    issued it yields the record stored there, and yields that same record
    after any further calls of [put] and [delete]. *)
Theorem readAt_range (s : t) (pos : Z) :
  (pos < 0 ∨ Z.of_nat (length (log s)) ≤ pos →
     readAt pos s = (Return None, s) ∧
     ∀ k m, keyDir s !! k = Some m → KeyDirEntry.valuePos m = pos →
            get k s = (Throw TypeError, s)) ∧
  (0 ≤ pos < Z.of_nat (length (log s)) →
     ∃ e, readAt pos s = (Return (Some e), s) ∧
          ∀ ops, readAt pos (after_calls ops s)
                   = (Return (Some e), after_calls ops s)).
Proof.
  unfold readAt. split.
  - intros Hout. apply array_get_None in Hout. rewrite Hout.
    split; [reflexivity|]. intros k m Hm <-. rewrite get_eq, Hm, Hout.
    reflexivity.
  - intros Hin. destruct (array_get (log s) pos) as [e|] eqn:Hread.
    + exists e. split; [reflexivity|]. intros ops.
      destruct (after_calls_log ops s) as (l & -> & _).
      apply array_get_Some in Hread as [_ Hread].
      unfold array_get. destruct (pos <? 0) eqn:Hneg.
      * apply Z.ltb_lt in Hneg. lia.
      * rewrite (lookup_app_l_Some _ _ _ _ Hread). reflexivity.
    + apply array_get_None in Hread. lia.
Qed.

(** C8, amended (valueSize). Once [put(k, v)] has returned, the index entry
    of [k] points at the log record that holds [v], and its [valueSize] is
    the length of [JSON.stringify(v)], the serialized value: for a string
    that is at least two more than the length of [v] itself. *)
Theorem valueSize_serialized (s : t) (now k : string) (v : JsVal) (s' : t) :
  put now k v s = (Return (), s') →
  ∃ m str,
    keyDir s' !! k = Some m ∧
    LogEntry.value <$> array_get (log s') (KeyDirEntry.valuePos m) = Some v ∧
    JSON.stringify v = Some str ∧
    KeyDirEntry.valueSize m = Z.of_nat (String.length str) ∧
    ∀ x, v = JStr x →
         Z.of_nat (String.length x) + 2 ≤ KeyDirEntry.valueSize m.
Proof.
  rewrite put_eq. simpl.
  destruct (JSON.stringify v) as [str|] eqn:Hv; [|discriminate].
  intros [= <-]. simpl. eexists _, str. rewrite lookup_insert_eq. simpl.
  split; [reflexivity|]. simpl. rewrite array_get_pushed. simpl.
  repeat split. intros x ->. injection Hv as <-.
  pose proof (JSON_quote_length x). lia.
Qed.

(** C9 (null stands for notFound). From any store and for any key [k]:
    after [put(k, null)] the key is in the keyDir and [get(k)] returns
    [null]; after [delete(k)] the key is not in the keyDir and [get(k)]
    returns [null] as well, as it does on the empty store. The result of
    [get] does not tell a stored [null] from an absent or deleted key. *)
Theorem null_value_indistinguishable (s : t) (now k : string) :
  ∃ s1 s2,
    put now k JNull s = (Return (), s1) ∧
    delete now k s = (Return (), s2) ∧
    is_Some (keyDir s1 !! k) ∧
    keyDir s2 !! k = None ∧
    keyDir new !! k = None ∧
    fst (get k s1) = Return JNull ∧
    fst (get k s2) = Return JNull ∧
    fst (get k new) = Return JNull.
Proof.
  destruct (put now k JNull s) as [c s1] eqn:Hput.
  assert (c = Return ()) as ->.
  { rewrite put_eq in Hput. simpl in Hput. congruence. }
  exists s1, (snd (delete now k s)).
  rewrite (get_after_put _ _ _ _ _ Hput).
  rewrite put_eq in Hput. simpl in Hput. injection Hput as <-. simpl.
  rewrite lookup_insert_eq, lookup_delete_eq, lookup_empty.
  rewrite (get_absent new) by apply lookup_empty.
  rewrite get_absent by apply lookup_delete_eq.
  repeat split; eauto.
Qed.

(** C10 (get is read-only). On any store and for any key, indexed or not,
    [get] leaves the store as it found it: same log, same keyDir. *)
Theorem get_read_only (s : t) (k : string) :
  snd (get k s) = s ∧
  log (snd (get k s)) = log s ∧
  keyDir (snd (get k s)) = keyDir s.
Proof.
  assert (snd (get k s) = s) as ->; [|auto].
  rewrite get_eq. destruct (keyDir s !! k) as [m|]; [|reflexivity].
  destruct (array_get (log s) (KeyDirEntry.valuePos m)); reflexivity.
Qed.

End Properties.

(** ** The properties on the scenario, and where two claims fail *)

Section Scenario.

Import BitcaskStore.

Lemma index_log_consistency_witness :
  reachable store_a2 ∧
  ((is_Some (keyDir store_a2 !! "a") ↔
      ∃ e, latest_record "a" (log store_a2) = Some e ∧
           LogEntry.isTombstone e = false) ∧
   (keyDir store_a2 !! "a" = None ↔
      latest_record "a" (log store_a2) = None ∨
      ∃ e, latest_record "a" (log store_a2) = Some e ∧
           LogEntry.isTombstone e = true)).
Proof.
  split; [exact reachable_store_a2|].
  exact (index_log_consistency store_a2 "a" reachable_store_a2).
Defined.

Lemma write_then_read_witness :
  put "t1" "a" (JStr "1") new = (Return (), store_a1) ∧
  get "a" store_a1 = (Return (JStr "1"), store_a1).
Proof.
  assert (put "t1" "a" (JStr "1") new = (Return (), store_a1)) as H
    by reflexivity.
  split; [exact H|].
  exact (write_then_read new "t1" "a" (JStr "1") store_a1 H).
Defined.

Lemma overwrite_recency_witness :
  (put "t1" "a" (JStr "1") ;; put "t2" "a" (JStr "2")) new
    = (Return (), store_a2) ∧
  get "a" store_a2 = (Return (JStr "2"), store_a2).
Proof.
  assert ((put "t1" "a" (JStr "1") ;; put "t2" "a" (JStr "2")) new
            = (Return (), store_a2)) as H by reflexivity.
  split; [exact H|].
  exact (overwrite_recency new "t1" "t2" "a" (JStr "1") (JStr "2")
           store_a2 H).
Defined.

Lemma history_preservation_witness :
  array_get (log store_a2) 1 = Some (LogEntry.new "t2" "a" (JStr "2") false) ∧
  array_get (log (snd (call (Delete "t3" "a") store_a2))) 1
    = Some (LogEntry.new "t2" "a" (JStr "2") false).
Proof.
  assert (array_get (log store_a2) 1
            = Some (LogEntry.new "t2" "a" (JStr "2") false)) as H
    by reflexivity.
  split; [exact H|].
  exact (proj2 (proj2 (history_preservation store_a2 (Delete "t3" "a")))
           1 _ H).
Defined.


Lemma readAt_range_witness :
  (readAt 0 store_desync = (Return None, store_desync) ∧
   ∀ k m, keyDir store_desync !! k = Some m → KeyDirEntry.valuePos m = 0 →
          get k store_desync = (Throw TypeError, store_desync)) ∧
  (∃ e, readAt 1 store_a2 = (Return (Some e), store_a2) ∧
        ∀ ops, readAt 1 (after_calls ops store_a2)
                 = (Return (Some e), after_calls ops store_a2)).
Proof.
  split.
  - apply (proj1 (readAt_range store_desync 0)). right. simpl. lia.
  - apply (proj2 (readAt_range store_a2 1)). simpl. lia.
Defined.

Lemma valueSize_serialized_witness :
  put "t1" "a" (JStr "1") new = (Return (), store_a1) ∧
  ∃ m str,
    keyDir store_a1 !! "a" = Some m ∧
    LogEntry.value <$> array_get (log store_a1) (KeyDirEntry.valuePos m)
      = Some (JStr "1") ∧
    JSON.stringify (JStr "1") = Some str ∧
    KeyDirEntry.valueSize m = Z.of_nat (String.length str) ∧
    ∀ x, JStr "1" = JStr x →
         Z.of_nat (String.length x) + 2 ≤ KeyDirEntry.valueSize m.
Proof.
  assert (put "t1" "a" (JStr "1") new = (Return (), store_a1)) as H
    by reflexivity.
  split; [exact H|].
  exact (valueSize_serialized new "t1" "a" (JStr "1") store_a1 H).
Defined.

(** C1 as stated fails: [put("b", undefined)] on the empty store throws
    after its push, and the store it leaves has a live record as the most
    recent record of [b] and no entry for [b] in the keyDir. *)
Lemma index_log_consistency_fails_after_failed_put :
  put "t1" "b" JUndefined new = (Throw TypeError, store_failed_put) ∧
  latest_record "b" (log store_failed_put)
    = Some (LogEntry.new "t1" "b" JUndefined false) ∧
  keyDir store_failed_put !! "b" = None ∧
  ¬ (∀ ops k,
       is_Some (keyDir (after_calls ops new) !! k) ↔
       ∃ e, latest_record k (log (after_calls ops new)) = Some e ∧
            LogEntry.isTombstone e = false).
Proof.
  repeat split. intros H.
  destruct (proj2 (H [Put "t1" "b" JUndefined] "b"%string)) as [m Hm].
  - exists (LogEntry.new "t1" "b" JUndefined false). split; reflexivity.
  - discriminate Hm.
Qed.

(** C4 as stated fails: after [put("a", "1"); put("a", undefined)] the
    second call has thrown, after its push and before the keyDir is set, and
    [get("a")] returns ["1"], not [undefined]. *)
Lemma overwrite_recency_fails_on_failed_put :
  put "t2" "a" JUndefined store_a1
    = (Throw TypeError, store_failed_overwrite) ∧
  (put "t1" "a" (JStr "1") ;; put "t2" "a" JUndefined) new
    = (Throw TypeError, store_failed_overwrite) ∧
  get "a" store_failed_overwrite
    = (Return (JStr "1"), store_failed_overwrite) ∧
  fst (get "a" store_failed_overwrite) ≠ Return JUndefined.
Proof. repeat split. discriminate. Qed.

(** C7 as stated fails: a read outside the log does not fail. On the empty
    log, and below and beyond the two records of [store_a2], it completes
    with [undefined]; the error that [get] then meets on such a position is
    the [TypeError] of the dereference. *)
Lemma readAt_out_of_range_returns :
  readAt 0 new = (Return None, new) ∧
  readAt (-1) store_a2 = (Return None, store_a2) ∧
  readAt 2 store_a2 = (Return None, store_a2) ∧
  ¬ (∃ err, fst (readAt 2 store_a2) = Throw err) ∧
  get "a" store_desync = (Throw TypeError, store_desync).
Proof.
  repeat split; try reflexivity. intros [err Herr]. discriminate Herr.
Qed.

(** C8 as stated fails: after [put("a", "1")] the record the index points
    at holds the string ["1"], of length 1, and the [valueSize] of the
    index entry is 3, the length of the serialization with its quotes. *)
Lemma valueSize_not_value_length :
  put "t1" "a" (JStr "1") new = (Return (), store_a1) ∧
  KeyDirEntry.valueSize <$> keyDir store_a1 !! "a" = Some 3 ∧
  LogEntry.value <$> array_get (log store_a1) 0 = Some (JStr "1") ∧
  value_length (JStr "1") = Some 1 ∧
  KeyDirEntry.valueSize <$> keyDir store_a1 !! "a"
    ≠ value_length (JStr "1").
Proof. repeat split; try reflexivity. discriminate. Qed.

End Scenario.


(** ** More on the store: histories, frames and failed calls *)

Section Store.

Import BitcaskStore.

Lemma call_log_record op s :
  log (snd (call op s)) = log s ++ [record_of op].
Proof.
  destruct op as [now k v|now k]; simpl; [|reflexivity].
  rewrite put_eq. simpl. destruct (JSON.stringify v); reflexivity.
Qed.

Lemma call_keyDir_other op s k :
  key_of op ≠ k → keyDir (snd (call op s)) !! k = keyDir s !! k.
Proof.
  destruct op as [now k' v|now k']; simpl; intros Hne.
  - rewrite put_eq. simpl. destruct (JSON.stringify v); simpl; [|reflexivity].
    apply lookup_insert_ne. assumption.
  - apply lookup_delete_ne. assumption.
Qed.

Lemma consistent_entry_in_log s k : consistent s → entry_in_log s k.
Proof.
  intros Hs m Hm. destruct (get_indexed s k m Hs Hm) as (e & -> & _). eauto.
Qed.

Lemma call_other_key op s k :
  entry_in_log s k → key_of op ≠ k →
  fst (get k (snd (call op s))) = fst (get k s) ∧
  entry_in_log (snd (call op s)) k.
Proof.
  intros Hk Hne. unfold entry_in_log.
  rewrite !get_eq, call_keyDir_other, call_log_record by assumption.
  destruct (keyDir s !! k) as [m|] eqn:Hm; [|split; [reflexivity|discriminate]].
  destruct (Hk m Hm) as [e He].
  rewrite He, (array_get_push _ _ _ _ He). split; [reflexivity|].
  intros ? [= <-]. rewrite (array_get_push _ _ _ _ He). eauto.
Qed.

Lemma after_calls_other_keys ops s k :
  entry_in_log s k → Forall (λ op, key_of op ≠ k) ops →
  fst (get k (after_calls ops s)) = fst (get k s).
Proof.
  revert s. induction ops as [|op ops IH]; intros s Hk Hops; [reflexivity|].
  inversion Hops as [|? ? Hop Hops']; subst. simpl.
  destruct (call_other_key op s k Hk Hop) as [<- Hk'].
  apply IH; assumption.
Qed.

Lemma reachable_fileId s k m :
  reachable s → keyDir s !! k = Some m →
  KeyDirEntry.fileId m = "active.data"%string.
Proof.
  intros Hs. revert k m.
  induction Hs as [|s now k' v s' Hs IH Hput|s now k' s' Hs IH Hdel];
    intros k m.
  - simpl. rewrite lookup_empty. discriminate.
  - rewrite put_eq in Hput. simpl in Hput.
    destruct (JSON.stringify v); [|discriminate].
    injection Hput as <-. simpl.
    destruct (decide (k' = k)) as [->|Hne].
    + rewrite lookup_insert_eq. intros [= <-]. reflexivity.
    + rewrite lookup_insert_ne by assumption. apply IH.
  - rewrite delete_eq in Hdel. injection Hdel as <-. simpl.
    destruct (decide (k' = k)) as [->|Hne].
    + rewrite lookup_delete_eq. discriminate.
    + rewrite lookup_delete_ne by assumption. apply IH.
Qed.

(** X1 (the log is the history of the calls). After any calls of [put] and
    [delete], whatever their completions, the log is the log before them
    followed by one record for each call, in the order of the calls: the
    live record of a put, the tombstone of a delete. *)
Theorem log_records_every_call (ops : list Op) (s : t) :
  log (after_calls ops s) = log s ++ map record_of ops.
Proof.
  revert s. induction ops as [|op ops IH]; intros s; simpl.
  - rewrite app_nil_r. reflexivity.
  - change (after_calls (op :: ops) s) with (after_calls ops (snd (call op s))).
    rewrite IH, call_log_record, <- app_assoc. reflexivity.
Qed.

(** X2 (get agrees with a scan of the log). On a reachable store [get(k)]
    never throws, and it returns what the most recent record of [k] in the
    log tells: its value when that record is a live write, [null] when it is
    a tombstone or when there is no record of [k]. *)
Theorem get_agrees_with_log_scan (s : t) (k : string) :
  reachable s →
  get k s =
    (Return match latest_record k (log s) with
            | Some e =>
                if LogEntry.isTombstone e then JNull else LogEntry.value e
            | None => JNull
            end, s).
Proof.
  intros Hs. apply reachable_consistent in Hs.
  destruct (keyDir s !! k) as [m|] eqn:Hm.
  - destruct (get_indexed s k m Hs Hm) as (e & _ & -> & _ & -> & ->).
    reflexivity.
  - rewrite (get_absent s k Hm). specialize (Hs k). rewrite Hm in Hs.
    unfold latest_record. destruct (latest k (log s)) as [[i e]|]; simpl.
    + rewrite (Hs i e eq_refl). reflexivity.
    + reflexivity.
Qed.

(** X3 (calls on other keys). On a reachable store, a call of [put] or
    [delete] on a key other than [k], whether it returns or throws, does not
    change what [get(k)] returns. *)
Theorem get_unchanged_by_other_key (s : t) (op : Op) (k : string) :
  reachable s →
  key_of op ≠ k →
  fst (get k (snd (call op s))) = fst (get k s).
Proof.
  intros Hs Hne. apply call_other_key; [|assumption].
  apply consistent_entry_in_log, reachable_consistent, Hs.
Qed.

(** X4 (a put outlives the traffic on other keys). From any store, once
    [put(k, v)] has returned, [get(k)] returns [v] after any further calls of
    [put] and [delete] on other keys, whatever their completions. *)
Theorem put_survives_other_keys (s : t) (now k : string) (v : JsVal)
    (s' : t) (ops : list Op) :
  put now k v s = (Return (), s') →
  Forall (λ op, key_of op ≠ k) ops →
  fst (get k (after_calls ops s')) = Return v.
Proof.
  intros Hput Hops. rewrite after_calls_other_keys; [| |assumption].
  - rewrite (get_after_put _ _ _ _ _ Hput). reflexivity.
  - rewrite put_eq in Hput. simpl in Hput.
    destruct (JSON.stringify v); [|discriminate]. injection Hput as <-.
    intros m. simpl. rewrite lookup_insert_eq. intros [= <-]. simpl.
    rewrite array_get_pushed. eauto.
Qed.

(** X5 (a delete outlives the traffic on other keys). From any store, after
    [delete(k)], [get(k)] returns [null] after any further calls of [put] and
    [delete] on other keys, whatever their completions. *)
Theorem delete_survives_other_keys (s : t) (now k : string)
    (ops : list Op) :
  Forall (λ op, key_of op ≠ k) ops →
  fst (get k (after_calls ops (snd (delete now k s)))) = Return JNull.
Proof.
  intros Hops. rewrite after_calls_other_keys; [| |assumption].
  - rewrite get_absent; [reflexivity|]. apply lookup_delete_eq.
  - intros m. simpl. rewrite lookup_delete_eq. discriminate.
Qed.

End Store.

Section Index.

Import BitcaskStore.

(** X6 (the keyDir is a function of the log). Two reachable stores with the
    same log are the same store: the keyDir holds nothing that the log does
    not determine. *)
Theorem keyDir_determined_by_log (s1 s2 : t) :
  reachable s1 → reachable s2 → log s1 = log s2 → s1 = s2.
Proof.
  intros H1 H2 Hlog.
  pose proof (reachable_consistent _ H1) as C1.
  pose proof (reachable_consistent _ H2) as C2.
  destruct s1 as [l1 d1], s2 as [l2 d2]. simpl in *. subst l2.
  f_equal. apply map_eq. intros k.
  specialize (C1 k). specialize (C2 k). simpl in *.
  pose proof (λ m, reachable_fileId _ k m H1) as F1. simpl in F1.
  pose proof (λ m, reachable_fileId _ k m H2) as F2. simpl in F2.
  unfold index_entry_ok in *. simpl in *.
  destruct (d1 !! k) as [m1|], (d2 !! k) as [m2|]; [| | |reflexivity].
  - destruct C1 as (i & e & Hl & _ & P1 & T1 & S1).
    destruct C2 as (i' & e' & Hl' & _ & P2 & T2 & S2).
    rewrite Hl in Hl'. injection Hl' as <- <-.
    rewrite S1 in S2. injection S2 as S2.
    specialize (F1 m1 eq_refl). specialize (F2 m2 eq_refl).
    destruct m1, m2. simpl in *. congruence.
  - destruct C1 as (i & e & Hl & Hlive & _).
    rewrite (C2 i e Hl) in Hlive. discriminate.
  - destruct C2 as (i & e & Hl & Hlive & _).
    rewrite (C1 i e Hl) in Hlive. discriminate.
Qed.

(** X7 (what an index entry caches). In every reachable store, an entry of
    the keyDir names the file [active.data], carries the timestamp of the
    record it points at, and its [valueSize] is the length of the
    serialization of that record's value. *)
Theorem index_entry_caches_record (s : t) (k : string) (m : KeyDirEntry.t) :
  reachable s →
  keyDir s !! k = Some m →
  KeyDirEntry.fileId m = "active.data"%string ∧
  ∃ e str,
    array_get (log s) (KeyDirEntry.valuePos m) = Some e ∧
    KeyDirEntry.timestamp m = LogEntry.timestamp e ∧
    JSON.stringify (LogEntry.value e) = Some str ∧
    KeyDirEntry.valueSize m = Z.of_nat (String.length str).
Proof.
  intros Hs Hm. split; [apply (reachable_fileId s k m Hs Hm)|].
  apply reachable_consistent in Hs. specialize (Hs k). rewrite Hm in Hs.
  destruct Hs as (i & e & Hlast & _ & Hpos & Htime & Hsize).
  destruct (latest_Some _ _ _ _ Hlast) as (Hi & _).
  destruct (JSON.stringify (LogEntry.value e)) as [str|] eqn:Hstr;
    [|discriminate].
  injection Hsize as Hsize. exists e, str.
  rewrite Hpos, array_get_of_nat, <- Hsize.
  repeat split; auto.
Qed.

(** X8 (no record is shared). In every reachable store, two keys of the
    keyDir whose entries hold the same position are the same key. *)
Theorem index_positions_distinct (s : t) (k1 k2 : string)
    (m1 m2 : KeyDirEntry.t) :
  reachable s →
  keyDir s !! k1 = Some m1 →
  keyDir s !! k2 = Some m2 →
  KeyDirEntry.valuePos m1 = KeyDirEntry.valuePos m2 →
  k1 = k2.
Proof.
  intros Hs H1 H2 Hpos. apply reachable_consistent in Hs.
  destruct (get_indexed s k1 m1 Hs H1) as (e1 & R1 & _ & <- & _).
  destruct (get_indexed s k2 m2 Hs H2) as (e2 & R2 & _ & <- & _).
  congruence.
Qed.


End Index.


(** ** Trimming *)

Section Trim.

Implicit Types (s : string) (c : ascii).

Lemma is_empty_true s : is_empty s = true ↔ s = EmptyString.
Proof. destruct s; simpl; split; congruence. Qed.

Lemma is_empty_false s : is_empty s = false ↔ s ≠ EmptyString.
Proof. destruct s; simpl; split; congruence. Qed.

Lemma trim_start_head s :
  trim_start s = EmptyString ∨
  ∃ c r, trim_start s = String c r ∧ is_white_space c = false.
Proof.
  induction s as [|c s IH]; simpl; [auto|].
  destruct (is_white_space c) eqn:Hc; [assumption|]. right. eauto.
Qed.

Lemma trim_start_empty s :
  trim_start s = EmptyString ↔ all_white_space s = true.
Proof.
  induction s as [|c s IH]; simpl; [split; auto|].
  destruct (is_white_space c); simpl; [assumption|].
  split; discriminate.
Qed.

Lemma trim_end_empty s :
  trim_end s = EmptyString ↔ all_white_space s = true.
Proof.
  induction s as [|c s IH]; simpl; [split; auto|].
  destruct (trim_end s) as [|d r].
  - destruct (is_white_space c); simpl; [|split; discriminate].
    rewrite <- IH. split; auto.
  - split; [discriminate|]. intros H. apply andb_true_iff in H as [_ H].
    apply IH in H. discriminate.
Qed.

Lemma trim_end_head c r :
  is_white_space c = false → ∃ r', trim_end (String c r) = String c r'.
Proof.
  intros Hc. simpl. destruct (trim_end r); [rewrite Hc|]; eauto.
Qed.

Lemma trim_end_idemp s : trim_end (trim_end s) = trim_end s.
Proof.
  induction s as [|c s IH]; simpl; [reflexivity|].
  destruct (trim_end s) as [|d r] eqn:Hs.
  - destruct (is_white_space c) eqn:Hc; simpl; [reflexivity|].
    rewrite Hc. reflexivity.
  - change (trim_end (String c (String d r))) with
      (match trim_end (String d r) with
       | EmptyString => if is_white_space c then EmptyString
                        else String c EmptyString
       | r0 => String c r0
       end).
    rewrite IH. reflexivity.
Qed.

Lemma trim_empty s : trim s = EmptyString ↔ all_white_space s = true.
Proof.
  unfold trim. rewrite <- trim_start_empty. split.
  - intros H. destruct (trim_start_head s) as [|(c & r & Hs & Hc)];
      [assumption|].
    rewrite Hs in H. destruct (trim_end_head c r Hc) as [r' Hr].
    rewrite Hr in H. discriminate.
  - intros ->. reflexivity.
Qed.

Lemma trim_idemp s : trim (trim s) = trim s.
Proof.
  unfold trim. destruct (trim_start_head s) as [->|(c & r & -> & Hc)];
    [reflexivity|].
  destruct (trim_end_head c r Hc) as [r' Hr]. rewrite Hr.
  simpl trim_start. rewrite Hc, <- Hr. apply trim_end_idemp.
Qed.

End Trim.

(** ** The class list of the result box *)

Lemma elem_of_classList_remove (tokens l : list string) (c : string) :
  c ∈ classList_remove tokens l ↔ c ∈ l ∧ c ∉ tokens.
Proof. unfold classList_remove. rewrite list_elem_of_filter. tauto. Qed.

Lemma elem_of_classList_add (token : string) (l : list string) (c : string) :
  c ∈ classList_add token l ↔ c = token ∨ c ∈ l.
Proof.
  unfold classList_add. destruct (decide (token ∈ l)) as [Hin|Hout].
  - split; [auto|]. intros [->|]; assumption.
  - rewrite elem_of_app, list_elem_of_singleton. tauto.
Qed.

(** ** The listeners as equations on the page *)

Section Listeners.

Import Page.

Lemma formPut_submit_eq now p :
  formPut_submit now p =
    let key := trim (inputPutKey p) in
    let val := trim (inputPutValue p) in
    if is_empty key || is_empty val then (Return (), p)
    else
      (Return (),
       {| store := snd (BitcaskStore.put now key (JStr val) (store p));
          inputPutKey := "";
          inputPutValue := "";
          inputGetKey := inputGetKey p;
          inputDeleteKey := inputDeleteKey p;
          resultBox_classList := resultBox_classList p;
          resultBox_textContent := resultBox_textContent p |}).
Proof.
  cbv beta iota zeta delta [formPut_submit mbind M_bind read].
  destruct (is_empty (trim (inputPutKey p))
            || is_empty (trim (inputPutValue p))); [reflexivity|].
  unfold on_store. rewrite put_eq. reflexivity.
Qed.

Lemma formDelete_submit_eq now p :
  formDelete_submit now p =
    let key := trim (inputDeleteKey p) in
    if is_empty key then (Return (), p)
    else
      (Return (),
       {| store := snd (BitcaskStore.delete now key (store p));
          inputPutKey := inputPutKey p;
          inputPutValue := inputPutValue p;
          inputGetKey := inputGetKey p;
          inputDeleteKey := "";
          resultBox_classList := resultBox_classList p;
          resultBox_textContent := resultBox_textContent p |}).
Proof.
  cbv beta iota zeta delta [formDelete_submit mbind M_bind read].
  destruct (is_empty (trim (inputDeleteKey p))); reflexivity.
Qed.

Lemma formGet_submit_eq p :
  formGet_submit p =
    let key := trim (inputGetKey p) in
    if is_empty key then (Return (), p)
    else
      match fst (BitcaskStore.get key (store p)) with
      | Return val =>
          let shown := classList_remove ["hidden"; "error"]%string
                         (resultBox_classList p) in
          (Return (),
           {| store := store p;
              inputPutKey := inputPutKey p;
              inputPutValue := inputPutValue p;
              inputGetKey := inputGetKey p;
              inputDeleteKey := inputDeleteKey p;
              resultBox_classList :=
                if is_null val then classList_add "error" shown else shown;
              resultBox_textContent :=
                if is_null val then not_found_message key
                else value_message val |})
      | Throw e => (Throw e, p)
      end.
Proof.
  cbv beta iota zeta delta [formGet_submit mbind M_bind read].
  destruct (is_empty (trim (inputGetKey p))); [reflexivity|].
  unfold on_store. rewrite get_eq.
  destruct (BitcaskStore.keyDir (store p) !! trim (inputGetKey p)) as [m|].
  - destruct (array_get _ _) as [e|]; simpl.
    + destruct (is_null (LogEntry.value e)); reflexivity.
    + destruct p; reflexivity.
  - reflexivity.
Qed.

Lemma dispatch_store_cases ev p :
  Page.store (snd (dispatch ev p)) = Page.store p ∨
  (∃ now key val,
     ev = SubmitPut now ∧
     key = trim (inputPutKey p) ∧ val = trim (inputPutValue p) ∧
     key ≠ EmptyString ∧ val ≠ EmptyString ∧
     Page.store (snd (dispatch ev p))
       = snd (BitcaskStore.put now key (JStr val) (store p))) ∨
  (∃ now key,
     ev = SubmitDelete now ∧
     key = trim (inputDeleteKey p) ∧ key ≠ EmptyString ∧
     Page.store (snd (dispatch ev p))
       = snd (BitcaskStore.delete now key (store p))).
Proof.
  destruct ev as [| | | |now| |now]; simpl; auto.
  - rewrite formPut_submit_eq. simpl.
    destruct (is_empty (trim (inputPutKey p))) eqn:Hk; simpl; [auto|].
    destruct (is_empty (trim (inputPutValue p))) eqn:Hv; simpl; [auto|].
    apply is_empty_false in Hk, Hv. right. left. eauto 10.
  - rewrite formGet_submit_eq. simpl.
    destruct (is_empty (trim (inputGetKey p))); [auto|].
    destruct (fst (BitcaskStore.get _ _)); auto.
  - rewrite formDelete_submit_eq. simpl.
    destruct (is_empty (trim (inputDeleteKey p))) eqn:Hk; simpl; [auto|].
    apply is_empty_false in Hk. right. right. eauto 10.
Qed.

End Listeners.


(** ** Properties of the page *)

Section PageProperties.

Import Page.

Lemma page_reachable_after_events evs p :
  page_reachable p → page_reachable (after_events evs p).
Proof.
  revert p. induction evs as [|ev evs IH]; intros p Hp; [assumption|].
  apply IH. apply page_event. assumption.
Qed.

Lemma not_blank_trim s :
  all_white_space s = false → is_empty (trim s) = false.
Proof.
  intros H. apply is_empty_false. rewrite trim_empty. congruence.
Qed.

Lemma blank_trim s : all_white_space s = true → is_empty (trim s) = true.
Proof. intros H. apply is_empty_true, trim_empty, H. Qed.

Lemma consistent_get_returns s k :
  consistent s → ∃ v, BitcaskStore.get k s = (Return v, s).
Proof.
  intros Hs. destruct (BitcaskStore.keyDir s !! k) as [m|] eqn:Hm.
  - destruct (get_indexed s k m Hs Hm) as (e & _ & _ & _ & _ & ->). eauto.
  - rewrite (get_absent s k Hm). eauto.
Qed.

Lemma page_store_invariant p :
  page_reachable p →
  reachable (store p) ∧ Forall page_record (BitcaskStore.log (store p)).
Proof.
  induction 1 as [p Hnew|p ev Hp [IHr IHl]].
  - rewrite Hnew. split; [apply reachable_new|constructor].
  - destruct (dispatch_store_cases ev p)
      as [->|[(now & key & val & _ & Hk & Hv & Hkne & Hvne & ->)
             |(now & key & _ & Hk & Hkne & ->)]].
    + auto.
    + split.
      * apply (reachable_put (store p) now key (JStr val)); [assumption|].
        rewrite put_eq. reflexivity.
      * rewrite put_eq. simpl. apply Forall_app. split; [assumption|].
        constructor; [|constructor]. unfold page_record. simpl.
        subst key val. rewrite !trim_idemp.
        split; [assumption|]. split; [reflexivity|].
        exists (trim (inputPutValue p)). auto using trim_idemp.
    + split.
      * apply (reachable_delete (store p) now key); [assumption|].
        reflexivity.
      * simpl. apply Forall_app. split; [assumption|].
        constructor; [|constructor]. unfold page_record. simpl.
        subst key. rewrite trim_idemp. auto.
Qed.

(** X10 (blank input is ignored). A submit of the put form with a key or a
    value of white space only, and a submit of the get or of the delete form
    with a key of white space only, return without changing anything: the
    store, the inputs and the result box stay as they are. *)
Theorem blank_submit_ignored (p : Page.t) (now : string) :
  (all_white_space (inputPutKey p) = true ∨
   all_white_space (inputPutValue p) = true →
   formPut_submit now p = (Return (), p)) ∧
  (all_white_space (inputGetKey p) = true →
   formGet_submit p = (Return (), p)) ∧
  (all_white_space (inputDeleteKey p) = true →
   formDelete_submit now p = (Return (), p)).
Proof.
  split; [|split].
  - intros H. rewrite formPut_submit_eq. simpl.
    destruct H as [H|H]; rewrite (blank_trim _ H); [reflexivity|].
    rewrite orb_true_r. reflexivity.
  - intros H. rewrite formGet_submit_eq. simpl.
    rewrite (blank_trim _ H). reflexivity.
  - intros H. rewrite formDelete_submit_eq. simpl.
    rewrite (blank_trim _ H). reflexivity.
Qed.

(** X11 (what the page keeps in its store). On every page reached by
    events from a freshly loaded one, the store is a reachable store, so that
    the index and the log agree on it; and every record of its log has a key
    that is trimmed and not empty, and holds either a trimmed, non-empty
    string (a live record) or the sentinel (a tombstone): no [null], no
    [undefined]. *)
Theorem page_store_well_formed (p : Page.t) :
  page_reachable p →
  reachable (store p) ∧
  ∀ e, e ∈ BitcaskStore.log (store p) →
    LogEntry.key e ≠ EmptyString ∧
    trim (LogEntry.key e) = LogEntry.key e ∧
    if LogEntry.isTombstone e
    then LogEntry.value e = JStr "DELETE_TOMBSTONE"
    else ∃ x, LogEntry.value e = JStr x ∧ x ≠ EmptyString ∧ trim x = x.
Proof.
  intros Hp. destruct (page_store_invariant p Hp) as [Hr Hl].
  split; [assumption|]. intros e He.
  rewrite Forall_forall in Hl. apply (Hl e He).
Qed.

(** X12 (no listener throws). On every page reached by events from a
    freshly loaded one, every event is handled without an exception: the
    value handed to [store.put] is a string, and the position [store.get]
    reads is in the log. *)
Theorem listeners_never_throw (p : Page.t) (ev : Event) :
  page_reachable p →
  fst (dispatch ev p) = Return ().
Proof.
  intros Hp. destruct ev as [| | | |now| |now]; simpl; try reflexivity.
  - rewrite formPut_submit_eq. simpl.
    destruct (is_empty _ || is_empty _); reflexivity.
  - rewrite formGet_submit_eq. simpl.
    destruct (is_empty _); [reflexivity|].
    destruct (page_store_invariant p Hp) as [Hr _].
    apply reachable_consistent in Hr.
    destruct (consistent_get_returns _ (trim (inputGetKey p)) Hr) as [v ->].
    reflexivity.
  - rewrite formDelete_submit_eq. simpl.
    destruct (is_empty _); reflexivity.
Qed.

Lemma shown_classes (l : list string) :
  ("hidden"%string ∉ classList_remove ["hidden"; "error"]%string l) ∧
  ("error"%string ∉ classList_remove ["hidden"; "error"]%string l) ∧
  ∀ c, c ≠ "hidden"%string → c ≠ "error"%string →
       (c ∈ classList_remove ["hidden"; "error"]%string l ↔ c ∈ l).
Proof.
  repeat split.
  - rewrite elem_of_classList_remove. intros [_ H]. apply H. left.
  - rewrite elem_of_classList_remove. intros [_ H]. apply H. right. left.
  - rewrite elem_of_classList_remove. tauto.
  - intros Hc. apply elem_of_classList_remove. split; [assumption|].
    rewrite !elem_of_cons, elem_of_nil. tauto.
Qed.

(** X13 (what a lookup shows). On a page reached by events from a freshly
    loaded one, a submit of the get form with a key that is not blank leaves
    the store and the inputs as they are, shows the result box (removes
    [hidden], and keeps the classes other than [hidden] and [error]), and
    tells what the log tells for the trimmed key: when its most recent
    record is a live write the text is [Value: ] followed by that record's
    string and the box is not marked [error]; when there is no record of the
    key or the most recent one is a tombstone, the text is the not-found
    message and the box is marked [error]. *)
Theorem get_submit_shows_latest (p : Page.t) :
  page_reachable p →
  all_white_space (inputGetKey p) = false →
  let key := trim (inputGetKey p) in
  let p' := snd (formGet_submit p) in
  store p' = store p ∧
  (inputPutKey p', inputPutValue p', inputGetKey p', inputDeleteKey p')
    = (inputPutKey p, inputPutValue p, inputGetKey p, inputDeleteKey p) ∧
  ("hidden"%string ∉ resultBox_classList p') ∧
  (∀ c, c ≠ "hidden"%string → c ≠ "error"%string →
        (c ∈ resultBox_classList p' ↔ c ∈ resultBox_classList p)) ∧
  ((∃ e x,
      latest_record key (BitcaskStore.log (store p)) = Some e ∧
      LogEntry.isTombstone e = false ∧
      LogEntry.value e = JStr x ∧
      resultBox_textContent p' = "Value: " +:+ x ∧
      ("error"%string ∉ resultBox_classList p')) ∨
   ((latest_record key (BitcaskStore.log (store p)) = None ∨
     ∃ e, latest_record key (BitcaskStore.log (store p)) = Some e ∧
          LogEntry.isTombstone e = true) ∧
    resultBox_textContent p' = not_found_message key ∧
    ("error"%string ∈ resultBox_classList p'))).
Proof.
  intros Hp Hkey. simpl.
  destruct (page_store_invariant p Hp) as [Hr Hl].
  apply reachable_consistent in Hr.
  rewrite formGet_submit_eq. simpl. rewrite (not_blank_trim _ Hkey).
  destruct (shown_classes (resultBox_classList p)) as (Hh & He & Hc).
  set (key := trim (inputGetKey p)).
  destruct (BitcaskStore.keyDir (store p) !! key) as [m|] eqn:Hm.
  - destruct (get_indexed _ key m Hr Hm)
      as (e & Hread & Hlast & _ & Hlive & Hget).
    rewrite Hget. simpl.
    assert (e ∈ BitcaskStore.log (store p)) as Hin.
    { apply array_get_Some in Hread as [_ Hread].
      apply (list_elem_of_lookup_2 _ _ _ Hread). }
    rewrite Forall_forall in Hl. destruct (Hl e Hin) as (_ & _ & Hval).
    rewrite Hlive in Hval. destruct Hval as (x & Hx & _).
    rewrite Hx. simpl. repeat split; try assumption; try apply Hc; auto.
    left. exists e, x. auto.
  - rewrite (get_absent _ key Hm). simpl.
    repeat split.
    + rewrite elem_of_classList_add. intros [[=]|]. contradiction.
    + rewrite elem_of_classList_add. intros [->|Hin]; [congruence|].
      apply Hc in Hin; assumption.
    + intros Hin. apply elem_of_classList_add. right. apply Hc; assumption.
    + right. split; [|split; [reflexivity|]].
      * specialize (Hr key). rewrite Hm in Hr. unfold latest_record.
        destruct (latest key (BitcaskStore.log (store p))) as [[i e]|];
          simpl; [right|left; reflexivity].
        exists e. split; [reflexivity|]. apply (Hr i e eq_refl).
      * apply elem_of_classList_add. left. reflexivity.
Qed.

(** X14 (a put through the forms, then a lookup). On any page, a submit of
    the put form with a key and a value that are not blank appends the live
    record of the trimmed key and value and empties the two inputs; a
    lookup of a key that trims to the same key then shows [Value: ] followed
    by the trimmed value, in a result box that is neither [hidden] nor
    marked [error]. *)
Theorem put_submit_then_get_submit (p : Page.t) (now text : string) :
  all_white_space (inputPutKey p) = false →
  all_white_space (inputPutValue p) = false →
  trim text = trim (inputPutKey p) →
  let p' := after_events [SubmitPut now; EditGetKey text; SubmitGet] p in
  BitcaskStore.log (store p')
    = BitcaskStore.log (store p)
        ++ [LogEntry.new now (trim (inputPutKey p))
              (JStr (trim (inputPutValue p))) false] ∧
  inputPutKey p' = EmptyString ∧
  inputPutValue p' = EmptyString ∧
  resultBox_textContent p' = "Value: " +:+ trim (inputPutValue p) ∧
  ("hidden"%string ∉ resultBox_classList p') ∧
  ("error"%string ∉ resultBox_classList p').
Proof.
  intros Hk Hv Ht. unfold after_events. cbn [foldl dispatch].
  rewrite formGet_submit_eq, formPut_submit_eq.
  cbn [set_inputGetKey snd fst store inputPutKey inputPutValue inputGetKey
       inputDeleteKey resultBox_classList resultBox_textContent].
  rewrite (not_blank_trim _ Hk), (not_blank_trim _ Hv).
  cbn [orb set_inputGetKey snd fst store inputPutKey inputPutValue inputGetKey
       inputDeleteKey resultBox_classList resultBox_textContent].
  rewrite Ht, (not_blank_trim _ Hk).
  destruct (BitcaskStore.put now (trim (inputPutKey p))
              (JStr (trim (inputPutValue p))) (store p)) as [c s'] eqn:Hput.
  assert (c = Return ()) as ->.
  { rewrite put_eq in Hput. simpl in Hput. congruence. }
  cbn [snd]. rewrite (get_after_put _ _ _ _ _ Hput).
  destruct (shown_classes (resultBox_classList p)) as (Hh & He & _).
  rewrite put_eq in Hput. simpl in Hput. injection Hput as <-. simpl.
  auto 10.
Qed.

(** X15 (a delete through the forms, then a lookup). On any page, a submit
    of the delete form with a key that is not blank appends a tombstone for
    the trimmed key, whether the store had the key or not, and empties the
    input; a lookup of a key that trims to the same key then shows the
    not-found message, in a result box that is not [hidden] and is marked
    [error]. *)
Theorem delete_submit_then_get_submit (p : Page.t) (now text : string) :
  all_white_space (inputDeleteKey p) = false →
  trim text = trim (inputDeleteKey p) →
  let p' := after_events [SubmitDelete now; EditGetKey text; SubmitGet] p in
  BitcaskStore.log (store p')
    = BitcaskStore.log (store p)
        ++ [LogEntry.new now (trim (inputDeleteKey p))
              (JStr "DELETE_TOMBSTONE") true] ∧
  inputDeleteKey p' = EmptyString ∧
  resultBox_textContent p' = not_found_message (trim (inputDeleteKey p)) ∧
  ("hidden"%string ∉ resultBox_classList p') ∧
  ("error"%string ∈ resultBox_classList p').
Proof.
  intros Hk Ht. unfold after_events. cbn [foldl dispatch].
  rewrite formGet_submit_eq, formDelete_submit_eq.
  cbn [set_inputGetKey snd fst store inputPutKey inputPutValue inputGetKey
       inputDeleteKey resultBox_classList resultBox_textContent].
  rewrite (not_blank_trim _ Hk).
  cbn [set_inputGetKey snd fst store inputPutKey inputPutValue inputGetKey
       inputDeleteKey resultBox_classList resultBox_textContent].
  rewrite Ht, (not_blank_trim _ Hk).
  rewrite get_absent by (simpl; apply lookup_delete_eq). simpl.
  destruct (shown_classes (resultBox_classList p)) as (Hh & He & _).
  repeat split.
  - rewrite elem_of_classList_add. intros [[=]|]. contradiction.
  - apply elem_of_classList_add. left. reflexivity.
Qed.

End PageProperties.

(** ** The further properties on the scenario *)

Section MoreScenario.

Import BitcaskStore.

Lemma reachable_store_deleted : reachable store_deleted.
Proof.
  apply (reachable_delete store_a2 "t3" "a"); [|reflexivity].
  apply reachable_store_a2.
Qed.

Lemma page_reachable_hello : page_reachable page_hello.
Proof.
  apply page_reachable_after_events. apply page_loaded. reflexivity.
Qed.

Lemma get_agrees_with_log_scan_witness :
  reachable store_deleted ∧
  get "a" store_deleted = (Return JNull, store_deleted).
Proof.
  split; [exact reachable_store_deleted|].
  exact (get_agrees_with_log_scan store_deleted "a" reachable_store_deleted).
Defined.

Lemma get_unchanged_by_other_key_witness :
  reachable store_a2 ∧
  key_of (Delete "t3" "missing") ≠ "a"%string ∧
  fst (get "a" (snd (call (Delete "t3" "missing") store_a2)))
    = fst (get "a" store_a2).
Proof.
  assert (key_of (Delete "t3" "missing") ≠ "a"%string) as H by discriminate.
  split; [exact reachable_store_a2|]. split; [exact H|].
  exact (get_unchanged_by_other_key store_a2 (Delete "t3" "missing") "a"
           reachable_store_a2 H).
Defined.

Lemma put_survives_other_keys_witness :
  put "t1" "a" (JStr "1") new = (Return (), store_a1) ∧
  Forall (λ op, key_of op ≠ "a"%string)
    [Put "t2" "b" JUndefined; Delete "t3" "c"] ∧
  fst (get "a" (after_calls [Put "t2" "b" JUndefined; Delete "t3" "c"]
                  store_a1))
    = Return (JStr "1").
Proof.
  assert (put "t1" "a" (JStr "1") new = (Return (), store_a1)) as H
    by reflexivity.
  assert (Forall (λ op, key_of op ≠ "a"%string)
            [Put "t2" "b" JUndefined; Delete "t3" "c"]) as Hops
    by (repeat constructor; discriminate).
  split; [exact H|]. split; [exact Hops|].
  exact (put_survives_other_keys new "t1" "a" (JStr "1") store_a1 _ H Hops).
Defined.

Lemma delete_survives_other_keys_witness :
  Forall (λ op, key_of op ≠ "a"%string) [Put "t4" "b" (JStr "2")] ∧
  fst (get "a" (after_calls [Put "t4" "b" (JStr "2")]
                  (snd (delete "t3" "a" store_a2))))
    = Return JNull.
Proof.
  assert (Forall (λ op, key_of op ≠ "a"%string) [Put "t4" "b" (JStr "2")])
    as Hops by (repeat constructor; discriminate).
  split; [exact Hops|].
  exact (delete_survives_other_keys store_a2 "t3" "a" _ Hops).
Defined.

Lemma keyDir_determined_by_log_witness :
  reachable store_a2 ∧ log store_a2 = log store_a2 ∧ store_a2 = store_a2.
Proof.
  split; [exact reachable_store_a2|]. split; [reflexivity|].
  exact (keyDir_determined_by_log store_a2 store_a2
           reachable_store_a2 reachable_store_a2 eq_refl).
Defined.

Lemma index_entry_caches_record_witness :
  reachable store_a2 ∧
  keyDir store_a2 !! "a" = Some (KeyDirEntry.new "active.data" 3 1 "t2") ∧
  KeyDirEntry.fileId (KeyDirEntry.new "active.data" 3 1 "t2")
    = "active.data"%string ∧
  ∃ e str,
    array_get (log store_a2) 1 = Some e ∧
    "t2"%string = LogEntry.timestamp e ∧
    JSON.stringify (LogEntry.value e) = Some str ∧
    3 = Z.of_nat (String.length str).
Proof.
  assert (keyDir store_a2 !! "a"
            = Some (KeyDirEntry.new "active.data" 3 1 "t2")) as H
    by reflexivity.
  split; [exact reachable_store_a2|]. split; [exact H|].
  exact (index_entry_caches_record store_a2 "a" _ reachable_store_a2 H).
Defined.

Lemma index_positions_distinct_witness :
  reachable store_a2 ∧
  keyDir store_a2 !! "a" = Some (KeyDirEntry.new "active.data" 3 1 "t2") ∧
  "a"%string = "a"%string.
Proof.
  assert (keyDir store_a2 !! "a"
            = Some (KeyDirEntry.new "active.data" 3 1 "t2")) as H
    by reflexivity.
  split; [exact reachable_store_a2|]. split; [exact H|].
  exact (index_positions_distinct store_a2 "a" "a" _ _
           reachable_store_a2 H H eq_refl).
Defined.


End MoreScenario.

Section PageScenario.

Import Page.

Lemma blank_submit_ignored_witness :
  (all_white_space (inputPutKey page_blank_keys) = true ∧
   formPut_submit "t2" page_blank_keys = (Return (), page_blank_keys)) ∧
  (all_white_space (inputPutValue page_blank_value) = true ∧
   formPut_submit "t2" page_blank_value = (Return (), page_blank_value)) ∧
  (all_white_space (inputGetKey page_blank_keys) = true ∧
   formGet_submit page_blank_keys = (Return (), page_blank_keys)) ∧
  (all_white_space (inputDeleteKey page_blank_keys) = true ∧
   formDelete_submit "t2" page_blank_keys = (Return (), page_blank_keys)).
Proof.
  assert (all_white_space (inputPutKey page_blank_keys) = true) as Hpk
    by reflexivity.
  assert (all_white_space (inputPutValue page_blank_value) = true) as Hpv
    by reflexivity.
  assert (all_white_space (inputGetKey page_blank_keys) = true) as Hgk
    by reflexivity.
  assert (all_white_space (inputDeleteKey page_blank_keys) = true) as Hdk
    by reflexivity.
  destruct (blank_submit_ignored page_blank_keys "t2") as (H1 & H2 & H3).
  destruct (blank_submit_ignored page_blank_value "t2") as (H1' & _ & _).
  split; [exact (conj Hpk (H1 (or_introl Hpk)))|].
  split; [exact (conj Hpv (H1' (or_intror Hpv)))|].
  split; [exact (conj Hgk (H2 Hgk))|exact (conj Hdk (H3 Hdk))].
Defined.

Lemma page_store_well_formed_witness :
  page_reachable page_hello ∧
  reachable (store page_hello) ∧
  LogEntry.new "t1" "a" (JStr "hello") false
    ∈ BitcaskStore.log (store page_hello) ∧
  trim "a" = "a"%string ∧
  ∃ x, JStr "hello" = JStr x ∧ x ≠ EmptyString ∧ trim x = x.
Proof.
  assert (LogEntry.new "t1" "a" (JStr "hello") false
            ∈ BitcaskStore.log (store page_hello)) as Hin by left.
  destruct (page_store_well_formed page_hello page_reachable_hello)
    as [Hr Hl].
  destruct (Hl _ Hin) as (_ & Hk & Hv).
  split; [exact page_reachable_hello|]. split; [exact Hr|].
  split; [exact Hin|]. split; [exact Hk|exact Hv].
Defined.

Lemma listeners_never_throw_witness :
  page_reachable page_hello ∧
  fst (dispatch SubmitGet page_hello) = Return ().
Proof.
  split; [exact page_reachable_hello|].
  exact (listeners_never_throw page_hello SubmitGet page_reachable_hello).
Defined.

Lemma get_submit_shows_latest_witness :
  page_reachable page_lookup_zz ∧
  all_white_space (inputGetKey page_lookup_zz) = false ∧
  store (snd (formGet_submit page_lookup_zz)) = store page_lookup_zz ∧
  ("hidden"%string
     ∉ resultBox_classList (snd (formGet_submit page_lookup_zz)))
  ∧ resultBox_textContent (snd (formGet_submit page_lookup_zz))
      = not_found_message "zz".
Proof.
  assert (page_reachable page_lookup_zz) as Hzz.
  { apply page_reachable_after_events. exact page_reachable_hello. }
  assert (all_white_space (inputGetKey page_lookup_zz) = false) as H
    by reflexivity.
  destruct (get_submit_shows_latest page_lookup_zz Hzz H)
    as (Hs & _ & Hh & _ & _).
  split; [exact Hzz|]. split; [exact H|]. split; [exact Hs|].
  split; [exact Hh|reflexivity].
Defined.

Lemma put_submit_then_get_submit_witness :
  all_white_space " a " = false ∧
  all_white_space " hello " = false ∧
  trim "a" = trim " a " ∧
  resultBox_textContent
    (after_events [SubmitPut "t1"; EditGetKey "a"; SubmitGet]
       (after_events [EditPutKey " a "; EditPutValue " hello "]
          page_loaded_blank))
    = "Value: hello"%string.
Proof.
  assert (all_white_space " a " = false) as Hk by reflexivity.
  assert (all_white_space " hello " = false) as Hv by reflexivity.
  assert (trim "a" = trim " a ") as Ht by reflexivity.
  split; [exact Hk|]. split; [exact Hv|]. split; [exact Ht|].
  exact (proj1 (proj2 (proj2 (proj2
    (put_submit_then_get_submit
       (after_events [EditPutKey " a "; EditPutValue " hello "]
          page_loaded_blank) "t1" "a" Hk Hv Ht))))).
Defined.

Lemma delete_submit_then_get_submit_witness :
  all_white_space " missing " = false ∧
  trim "missing" = trim " missing " ∧
  resultBox_textContent
    (after_events [SubmitDelete "t2"; EditGetKey "missing"; SubmitGet]
       (after_events [EditDeleteKey " missing "] page_hello))
    = not_found_message "missing".
Proof.
  assert (all_white_space " missing " = false) as Hk by reflexivity.
  assert (trim "missing" = trim " missing ") as Ht by reflexivity.
  split; [exact Hk|]. split; [exact Ht|].
  exact (proj1 (proj2 (proj2
    (delete_submit_then_get_submit
       (after_events [EditDeleteKey " missing "] page_hello)
       "t2" "missing" Hk Ht)))).
Defined.

End PageScenario.
